(** * web-scrobbler: helper functions for background scripts

    A shallow embedding of [src/core/background/util/util.js] and the
    properties of its helpers: the scrobble threshold calculator
    [getSecondsToScrobble], the timeout guard [timeoutPromise], the
    redaction helpers [hideString] and [hideStringInText], the connector
    sort [getSortedConnectors] and the debug print [debugLog]. *)

From stdpp Require Import base option list gmap strings.
From Stdlib Require Import ZArith QArith Qround Qabs Lia Lqa Sorted Permutation.
From Stdlib Require Import Ascii String OrdersEx.

Local Open Scope Z_scope.

(** ** JavaScript numbers

    A number is [NaN], one of the two infinities, or a finite value.  Finite
    values are exact rationals: the embedding does not round to binary64 and
    does not tell [-0] from [+0] (both are falsy and compare alike). *)

Inductive number : Type :=
  | NaN
  | PosInf
  | NegInf
  | Fin (q : Q).

(** The values [getSecondsToScrobble] is called with: a number, or an absent
    duration ([undefined] or [null]). *)
Inductive value : Type :=
  | JSUndefined
  | JSNull
  | JSNumber (n : number).

Definition Qsign (q : Q) : comparison := (q ?= 0)%Q.

(** [ToBoolean]: [undefined], [null], [NaN] and zero are falsy. *)
Definition ToBoolean (v : value) : bool :=
  match v with
  | JSUndefined | JSNull => false
  | JSNumber NaN => false
  | JSNumber (Fin q) => negb (Qeq_bool q 0)
  | JSNumber _ => true
  end.

(** [ToNumber], applied by [<] and [*] to their operands. *)
Definition ToNumber (v : value) : number :=
  match v with
  | JSUndefined => NaN
  | JSNull => Fin 0
  | JSNumber n => n
  end.

(** [a < b] on numbers; any comparison with [NaN] is false. *)
Definition num_lt (a b : number) : bool :=
  match a, b with
  | NaN, _ | _, NaN => false
  | PosInf, _ => false
  | _, NegInf => false
  | NegInf, _ => true
  | _, PosInf => true
  | Fin x, Fin y => match (x ?= y)%Q with Lt => true | _ => false end
  end.

Definition num_neg (a : number) : number :=
  match a with
  | NaN => NaN
  | PosInf => NegInf
  | NegInf => PosInf
  | Fin x => Fin (- x)
  end.

Definition inf_times_sign (s : comparison) : number :=
  match s with
  | Gt => PosInf
  | Lt => NegInf
  | Eq => NaN
  end.

(** [a * b]. *)
Definition num_mul (a b : number) : number :=
  match a, b with
  | NaN, _ | _, NaN => NaN
  | Fin x, Fin y => Fin (x * y)
  | PosInf, Fin y | Fin y, PosInf => inf_times_sign (Qsign y)
  | NegInf, Fin y | Fin y, NegInf => num_neg (inf_times_sign (Qsign y))
  | PosInf, PosInf | NegInf, NegInf => PosInf
  | PosInf, NegInf | NegInf, PosInf => NegInf
  end.

(** [a / b]; a zero divisor is taken as [+0]. *)
Definition num_div (a b : number) : number :=
  match a, b with
  | NaN, _ | _, NaN => NaN
  | Fin x, Fin y =>
      if Qeq_bool y 0 then inf_times_sign (Qsign x) else Fin (x / y)
  | Fin _, PosInf | Fin _, NegInf => Fin 0
  | PosInf, Fin y => match Qsign y with Lt => NegInf | _ => PosInf end
  | NegInf, Fin y => match Qsign y with Lt => PosInf | _ => NegInf end
  | _, _ => NaN
  end.

(** [Math.round]: the integer nearest to the argument, a tie going towards
    plus infinity, that is [floor (x + 1/2)]. *)
Definition Math_round (a : number) : number :=
  match a with
  | Fin x => Fin (inject_Z (Qfloor (x + (1 # 2))%Q))
  | _ => a
  end.

(** [Math.min] of two numbers. *)
Definition Math_min (a b : number) : number :=
  match a, b with
  | NaN, _ | _, NaN => NaN
  | NegInf, _ | _, NegInf => NegInf
  | PosInf, _ => b
  | _, PosInf => a
  | Fin x, Fin y => if Qle_bool x y then a else b
  end.

(** ** The scrobble threshold calculator *)

(** Number of seconds of playback before the track is scrobbled; used only
    if no duration was parsed or loaded. *)
Definition DEFAULT_SCROBBLE_TIME : number := Fin 30.

(** Minimum number of seconds of a scrobbleable track. *)
Definition MIN_TRACK_DURATION : number := Fin 30.

(** Max number of seconds of playback before the track is scrobbled. *)
Definition MAX_SCROBBLE_TIME : number := Fin 240.

(** Percentage of song duration to scrobble. *)
Definition SCROBBLE_PERCENTAGE : number := Fin 50.

Definition getSecondsToScrobble (duration : value) : number :=
  if negb (ToBoolean duration) then DEFAULT_SCROBBLE_TIME
  else if num_lt (ToNumber duration) MIN_TRACK_DURATION then Fin (-1)
  else
    let scrobbleTime :=
      Math_round
        (num_div (num_mul (ToNumber duration) SCROBBLE_PERCENTAGE) (Fin 100)) in
    Math_min scrobbleTime MAX_SCROBBLE_TIME.

(** A finite duration given in seconds. *)
Definition seconds (q : Q) : value := JSNumber (Fin q).

(** Rounding as the specification words it: to the nearest integer, a tie
    going away from zero. *)
Definition round_half_away (q : Q) : Z :=
  if Qle_bool 0 q then Qfloor (q + (1 # 2))%Q else Qceiling (q - (1 # 2))%Q.

(** The delays the specification allows: the sentinel [-1], or a whole
    number of seconds between [1] and [MAX_SCROBBLE_TIME]. *)
Definition ScrobbleDelay (r : number) : Prop :=
  r = Fin (-1) \/ exists z : Z, r = Fin (inject_Z z) /\ 1 <= z <= 240.

(** The inputs of the calculator: a falsy value, or a finite duration that
    is not negative. *)
Definition calculator_domain (v : value) : Prop :=
  ToBoolean v = false \/ exists q : Q, v = seconds q /\ (0 <= q)%Q.

(** ** Redaction of sensitive strings

    A JavaScript string is a [string], one character per code unit.  A
    string argument can also be absent. *)

Inductive jsstring : Type :=
  | SUndefined
  | SNull
  | SStr (s : string).

(** [ToBoolean] of a string argument: absent and empty strings are falsy. *)
Definition truthy (s : jsstring) : bool :=
  match s with
  | SStr (String _ _) => true
  | _ => false
  end.

Definition STR_REPLACER : string := "x".
Definition REPLACER_LEN : nat := 5.

(** [s.repeat(n)]. *)
Fixpoint str_repeat (s : string) (n : nat) : string :=
  match n with
  | O => EmptyString
  | S n' => String.append s (str_repeat s n')
  end.

(** [s.substr(start)] for a start that is not negative: the characters from
    index [start] to the end, none when [start] is past the end. *)
Fixpoint substr (s : string) (start : nat) {struct start} : string :=
  match start, s with
  | O, _ => s
  | S n, String _ s' => substr s' n
  | S _, EmptyString => EmptyString
  end.

(** The text before and the text after the first occurrence of [pat]. *)
Fixpoint find_first (pat text : string) {struct text}
  : option (string * string) :=
  if String.prefix pat text then
    Some (EmptyString, substr text (String.length pat))
  else
    match text with
    | EmptyString => None
    | String c text' =>
        match find_first pat text' with
        | Some (before, after) => Some (String c before, after)
        | None => None
        end
    end.

(** [GetSubstitution] for a string pattern (no captures, no named groups):
    in the replacement text, [$$] stands for a dollar sign, [$&] for the
    matched substring, [$`] for the text before the match and [$'] for the
    text after it; a dollar sign followed by anything else stands for
    itself. *)
Fixpoint get_substitution (matched before after tpl : string) : string :=
  match tpl with
  | EmptyString => EmptyString
  | String c tl =>
      if Ascii.eqb c "$" then
        match tl with
        | EmptyString => String c EmptyString
        | String d rest =>
            if Ascii.eqb d "$" then
              String "$" (get_substitution matched before after rest)
            else if Ascii.eqb d "&" then
              String.append matched (get_substitution matched before after rest)
            else if Ascii.eqb d "`" then
              String.append before (get_substitution matched before after rest)
            else if Ascii.eqb d "'" then
              String.append after (get_substitution matched before after rest)
            else String c (get_substitution matched before after tl)
        end
      else String c (get_substitution matched before after tl)
  end.

(** The strings without a dollar sign, which [get_substitution] leaves as
    they are. *)
Fixpoint no_dollar (s : string) : bool :=
  match s with
  | EmptyString => true
  | String c s' => negb (Ascii.eqb c "$") && no_dollar s'
  end.

(** [text.replace(pat, replacement)] with a string pattern: only the first
    occurrence is replaced, and the replacement text is expanded by
    [get_substitution]. *)
Definition str_replace (text pat replacement : string) : string :=
  match find_first pat text with
  | None => text
  | Some (before, after) =>
      String.append before
        (String.append (get_substitution pat before after replacement) after)
  end.

(** Partial hide string in given text. *)
Definition hideStringInText (str text : jsstring) : jsstring :=
  match str, text with
  | SStr s, SStr t =>
      if truthy str && truthy text then
        let replacer :=
          str_repeat STR_REPLACER (Nat.min REPLACER_LEN (String.length t)) in
        SStr (str_replace t s
                (String.append replacer (substr s (String.length replacer))))
      else text
  | _, _ => text
  end.

(** Partial hide string. *)
Definition hideString (str : jsstring) : jsstring :=
  match str with
  | SStr s =>
      if truthy str then
        let replacer :=
          str_repeat STR_REPLACER (Nat.min REPLACER_LEN (String.length s)) in
        SStr (String.append replacer (substr s (String.length replacer)))
      else str
  | _ => str
  end.

(** The redaction the specification describes, for a secret [s] found in
    [before ++ s ++ after]: the first [min 5 (length s)] characters of the
    secret become the mask character, the rest of the secret and the
    surrounding text stay as they are. *)
Definition redacted (before s after : string) : string :=
  let k := Nat.min REPLACER_LEN (String.length s) in
  String.append before
    (String.append (str_repeat STR_REPLACER k) (String.append (substr s k) after)).

(** [before] and [after] are the text around the first occurrence of [s]
    in [t]: no occurrence of [s] starts further left. *)
Definition first_occurrence (s t before after : string) : Prop :=
  t = String.append before (String.append s after) /\
  forall b a : string,
    t = String.append b (String.append s a) ->
    (String.length before <= String.length b)%nat.

(** ** The timeout guard

    [timeoutPromise] is followed through the event loop.  Its closure owns a
    timer handle and the promise it returns, and reacts to two events: the
    timer expires, or the wrapped promise settles (the reaction registered
    with [then] runs as a microtask of the settlement, before any later
    timer). *)

(** Values promises are settled with: a value of the caller, or an [Error]
    object with its message. *)
Inductive jsval (V : Type) : Type :=
  | Val (v : V)
  | ErrorObject (message : string).
Arguments Val {V} v.
Arguments ErrorObject {V} message.

Inductive promise_state (V : Type) : Type :=
  | Pending
  | Fulfilled (res : jsval V)
  | Rejected (err : jsval V).
Arguments Pending {V}.
Arguments Fulfilled {V} res.
Arguments Rejected {V} err.

Inductive timer_state : Type :=
  | Armed
  | Cleared
  | Fired.

Record guard (V : Type) : Type := mkGuard {
  timeoutId : timer_state;
  returned : promise_state V;
  wrapped : promise_state V
}.
Arguments mkGuard {V} _ _ _.
Arguments timeoutId {V} _.
Arguments returned {V} _.
Arguments wrapped {V} _.

(** The resolving functions of a promise act once: on a settled promise
    they do nothing. *)
Definition settle {V} (p o : promise_state V) : promise_state V :=
  match p with
  | Pending => o
  | _ => p
  end.

(** [clearTimeout] cancels a timer that has not expired. *)
Definition clearTimeout (t : timer_state) : timer_state :=
  match t with
  | Armed => Cleared
  | _ => t
  end.

(** The callback given to [setTimeout]. *)
Definition onTimeout {V} (g : guard V) : guard V :=
  mkGuard Fired
    (settle (returned g) (Rejected (ErrorObject "promise timeout")))
    (wrapped g).

(** The two reactions given to [promise.then]. *)
Definition onFulfilled {V} (res : jsval V) (g : guard V) : guard V :=
  mkGuard (clearTimeout (timeoutId g))
    (settle (returned g) (Fulfilled res)) (wrapped g).

Definition onRejected {V} (err : jsval V) (g : guard V) : guard V :=
  mkGuard (clearTimeout (timeoutId g))
    (settle (returned g) (Rejected err)) (wrapped g).

Inductive event (V : Type) : Type :=
  | TimerExpires
  | WrappedSettles (o : promise_state V).
Arguments TimerExpires {V}.
Arguments WrappedSettles {V} o.

(** One turn of the event loop. *)
Definition step {V} (g : guard V) (e : event V) : guard V :=
  match e with
  | TimerExpires =>
      match timeoutId g with
      | Armed => onTimeout g
      | _ => g
      end
  | WrappedSettles o =>
      match wrapped g with
      | Pending =>
          let g' := mkGuard (timeoutId g) (returned g) o in
          match o with
          | Pending => g
          | Fulfilled res => onFulfilled res g'
          | Rejected err => onRejected err g'
          end
      | _ => g
      end
  end.

(** The state [timeoutPromise] leaves when it returns: the timer is set,
    the reactions are registered, the returned promise is pending. *)
Definition timeoutPromise {V} : guard V := mkGuard Armed Pending Pending.

(** The wrapped operation: it never settles, or it settles at some time
    (in milliseconds after the call) in some state. *)
Definition operation (V : Type) : Type := option (nat * promise_state V).

(** The events of instant [t].  When the timer and the settlement fall on
    the same instant, [timer_first] tells which one the loop runs first. *)
Definition events_at {V} (timer_first : bool) (timeout : nat)
    (op : operation V) (t : nat) : list (event V) :=
  let te := if Nat.eqb t timeout then [TimerExpires] else [] in
  let se :=
    match op with
    | Some (ts, o) => if Nat.eqb t ts then [WrappedSettles o] else []
    | None => []
    end in
  if timer_first then te ++ se else se ++ te.

(** The guard after every event up to and including instant [t]. *)
Fixpoint run_until {V} (timer_first : bool) (timeout : nat)
    (op : operation V) (t : nat) : guard V :=
  match t with
  | O => fold_left step (events_at timer_first timeout op O) timeoutPromise
  | S t' =>
      fold_left step (events_at timer_first timeout op t)
        (run_until timer_first timeout op t')
  end.

(** The guard before instant [t]. *)
Definition before {V} (timer_first : bool) (timeout : nat)
    (op : operation V) (t : nat) : guard V :=
  match t with
  | O => timeoutPromise
  | S t' => run_until timer_first timeout op t'
  end.

(** A promise that is no longer pending. *)
Definition is_settled {V} (p : promise_state V) : bool :=
  match p with
  | Pending => false
  | _ => true
  end.

(** The deadline comes strictly before the wrapped promise settles. *)
Definition deadline_first {V} (timeout : nat) (op : operation V) : Prop :=
  match op with
  | Some (ts, _) => (timeout < ts)%nat
  | None => True
  end.

(** The state of the wrapped promise at instant [t] on its own schedule. *)
Definition on_schedule {V} (op : operation V) (t : nat) : promise_state V :=
  match op with
  | Some (ts, o) => if Nat.leb ts t then o else Pending
  | None => Pending
  end.

(** The states a guard can be in: waiting with the timer set; timed out;
    or settled as the wrapped promise, with the timer cleared. *)
Definition guard_inv {V} (g : guard V) : Prop :=
  match timeoutId g with
  | Armed => returned g = Pending /\ wrapped g = Pending
  | Fired => returned g = Rejected (ErrorObject "promise timeout")
  | Cleared => is_settled (returned g) = true /\ returned g = wrapped g
  end.

(** ** Sorting the connectors

    Arrays are objects in a store; [connectors] is the address of the
    array the module imports. *)

Record connector (D : Type) : Type := mkConnector {
  label : string;
  descriptor : D
}.
Arguments mkConnector {D} _ _.
Arguments label {D} _.
Arguments descriptor {D} _.

Definition loc : Type := nat.

(** [insert_sorted] and [sort_stable]: the order [Array.prototype.sort]
    produces for a consistent comparator, equal elements keeping their
    order.  [cmp a b > 0] puts [a] after [b]. *)
Fixpoint insert_sorted {A} (cmp : A -> A -> Z) (x : A) (l : list A) : list A :=
  match l with
  | [] => [x]
  | y :: l' =>
      if Z.leb (cmp x y) 0 then x :: y :: l' else y :: insert_sorted cmp x l'
  end.

Fixpoint sort_stable {A} (cmp : A -> A -> Z) (l : list A) : list A :=
  match l with
  | [] => []
  | x :: l' => insert_sorted cmp x (sort_stable cmp l')
  end.

(** [a.slice(0)]: a new array with the elements of [a]. *)
Definition array_slice0 {A} (a : loc) (h : gmap loc (list A))
  : option (loc * gmap loc (list A)) :=
  match h !! a with
  | Some arr => let l := fresh (dom h) in Some (l, <[l := arr]> h)
  | None => None
  end.

(** [a.sort(cmp)]: sorts [a] in place and returns [a]. *)
Definition array_sort {A} (cmp : A -> A -> Z) (a : loc) (h : gmap loc (list A))
  : option (loc * gmap loc (list A)) :=
  match h !! a with
  | Some arr => Some (a, <[a := sort_stable cmp arr]> h)
  | None => None
  end.

Definition by_label {D} (localeCompare : string -> string -> Z)
    (a b : connector D) : Z :=
  localeCompare (label a) (label b).

(** Return a sorted array of connectors. *)
Definition getSortedConnectors {D} (localeCompare : string -> string -> Z)
    (connectors : loc) (h : gmap loc (list (connector D)))
  : option (loc * gmap loc (list (connector D))) :=
  match array_slice0 connectors h with
  | Some (copy, h') => array_sort (by_label localeCompare) copy h'
  | None => None
  end.

(** A comparator is consistent when it orders any two strings one way or
    the other, transitively. *)
Definition consistent (cmp : string -> string -> Z) : Prop :=
  (forall a b, 0 < cmp a b -> cmp b a <= 0) /\
  (forall a b c, cmp a b <= 0 -> cmp b c <= 0 -> cmp a c <= 0).

Definition label_le {D} (cmp : string -> string -> Z) (a b : connector D) : Prop :=
  cmp (label a) (label b) <= 0.

(** A comparison by code units, as a comparator. *)
Definition codeunit_compare (a b : string) : Z :=
  match String_as_OT.compare a b with
  | Lt => -1
  | Eq => 0
  | Gt => 1
  end.

(** The connectors with a given label. *)
Definition has_label {D} (s : string) (c : connector D) : bool :=
  String.eqb (label c) s.

(** ** Debug print *)

(** The console sink: the messages printed so far, each with its level. *)
Definition sink : Type := list (string * string).

(** What a call can throw: an [Error] or a [TypeError], with its message. *)
Inductive exception : Type :=
  | JSError (message : string)
  | JSTypeError (message : string).

Inductive completion (A : Type) : Type :=
  | Normal (a : A)
  | Throw (e : exception).
Arguments Normal {A} a.
Arguments Throw {A} e.

(** A property of the [console] object, its own or inherited from
    [Object.prototype]: a function, or some other value.  [debugLog] calls
    the function detached from the console, with the message; the call may
    print to the sink, and it returns or throws. *)
Inductive console_prop : Type :=
  | Function (f : string -> sink -> completion sink)
  | NotFunction.

(** [typeof p === 'function']; a missing property is [undefined]. *)
Definition is_function (p : option console_prop) : bool :=
  match p with
  | Some (Function _) => true
  | _ => false
  end.








(** * Properties *)

(** ** The scrobble threshold calculator *)

Section Calculator.
Local Open Scope Q_scope.

Lemma Qeq_bool_false_of_pos (q : Q) : 0 < q -> Qeq_bool q 0 = false.
Proof.
  intros Hq. destruct (Qeq_bool q 0) eqn:E; [|reflexivity].
  apply Qeq_bool_iff in E. rewrite E in Hq. discriminate Hq.
Qed.

Lemma ToBoolean_pos (q : Q) : 0 < q -> ToBoolean (seconds q) = true.
Proof. intros Hq. simpl. now rewrite Qeq_bool_false_of_pos. Qed.

Lemma num_lt_Fin (x y : Q) : num_lt (Fin x) (Fin y) = true <-> x < y.
Proof.
  simpl. rewrite Qlt_alt. destruct (x ?= y); split; congruence.
Qed.

Lemma num_lt_Fin_false (x y : Q) : num_lt (Fin x) (Fin y) = false <-> y <= x.
Proof.
  pose proof (num_lt_Fin x y) as H.
  destruct (num_lt (Fin x) (Fin y)); split; intros H'.
  - discriminate H'.
  - exfalso. apply (Qlt_not_le x y); [now apply H | exact H'].
  - apply Qnot_lt_le. intros Hxy. apply H in Hxy. discriminate Hxy.
  - reflexivity.
Qed.

(** The half of a duration, as the code computes it. *)
Lemma half_eq (q : Q) : q * 50 / 100 == q * (1 # 2).
Proof. field. Qed.

Lemma Math_min_Z (z m : Z) :
  Math_min (Fin (inject_Z z)) (Fin (inject_Z m)) = Fin (inject_Z (Z.min z m)).
Proof.
  simpl. destruct (Qle_bool (inject_Z z) (inject_Z m)) eqn:E.
  - apply Qle_bool_iff in E. rewrite <- Zle_Qle in E.
    now rewrite Z.min_l.
  - assert (H : ~ (z <= m)%Z).
    { intros H. rewrite Zle_Qle in H. apply Qle_bool_iff in H. congruence. }
    rewrite Z.min_r by lia. reflexivity.
Qed.

(** Above the minimum track duration the calculator rounds the half of the
    duration and clamps it. *)
Lemma getSecondsToScrobble_unfold (q : Q) :
  30 <= q ->
  getSecondsToScrobble (seconds q) =
  Fin (inject_Z (Z.min (Qfloor (q * 50 / 100 + (1 # 2))) 240)).
Proof.
  intros Hq. unfold getSecondsToScrobble.
  rewrite ToBoolean_pos by lra. cbn [negb].
  assert (Hlt : num_lt (ToNumber (seconds q)) MIN_TRACK_DURATION = false).
  { apply num_lt_Fin_false. exact Hq. }
  rewrite Hlt. cbn [ToNumber seconds SCROBBLE_PERCENTAGE num_mul num_div].
  change (Qeq_bool 100 0) with false. cbn iota.
  cbn [Math_round MAX_SCROBBLE_TIME].
  apply (Math_min_Z _ 240).
Qed.

Lemma round_half_away_nonneg (q : Q) :
  0 <= q -> round_half_away q = Qfloor (q + (1 # 2)).
Proof.
  intros Hq. unfold round_half_away.
  apply Qle_bool_iff in Hq. now rewrite Hq.
Qed.

(** [round_half_away] is rounding to nearest, ties away from zero: the
    result is within a half of the argument, and an integer at exactly a
    half from the argument is the result only if it is the one farther from
    zero. *)
Lemma round_half_away_near (q : Q) :
  Qabs (q - inject_Z (round_half_away q)) <= 1 # 2.
Proof.
  unfold round_half_away. apply Qabs_Qle_condition.
  destruct (Qle_bool 0 q).
  - pose proof (Qfloor_le (q + (1 # 2))) as H1.
    pose proof (Qlt_floor (q + (1 # 2))) as H2.
    rewrite inject_Z_plus in H2. change (inject_Z 1) with 1 in H2.
    split; lra.
  - pose proof (Qle_ceiling (q - (1 # 2))) as H1.
    pose proof (Qceiling_lt (q - (1 # 2))) as H2.
    unfold Z.sub in H2.
    rewrite inject_Z_plus in H2.
    change (inject_Z (Z.opp 1)) with (-1 # 1) in H2.
    split; lra.
Qed.

Lemma Qabs_eq_cases (x c : Q) : Qabs x == c -> x == c \/ x == - c.
Proof.
  apply (Qabs_case x (fun a => a == c -> x == c \/ x == - c)); intros _ H.
  - now left.
  - right. lra.
Qed.

Lemma integer_sign (z : Z) :
  inject_Z z <= -1 \/ inject_Z z == 0 \/ 1 <= inject_Z z.
Proof.
  destruct (Z.lt_trichotomy z 0) as [H|[H|H]].
  - left. change (-1) with (inject_Z (-1)). rewrite <- Zle_Qle. lia.
  - right; left. now subst z.
  - right; right. change 1 with (inject_Z 1). rewrite <- Zle_Qle. lia.
Qed.

Lemma round_half_away_tie (q : Q) (z : Z) :
  Qabs (q - inject_Z z) == 1 # 2 ->
  Qabs q < Qabs (inject_Z z) ->
  round_half_away q = z.
Proof.
  intros Htie Hfar. unfold round_half_away.
  apply Qabs_eq_cases in Htie.
  assert (Hz : Qabs (inject_Z z) == inject_Z z /\ 1 <= inject_Z z \/
               Qabs (inject_Z z) == 0 /\ inject_Z z == 0 \/
               Qabs (inject_Z z) == - inject_Z z /\ inject_Z z <= -1).
  { destruct (integer_sign z) as [Hz|[Hz|Hz]].
    - right; right. split; [apply Qabs_neg|]; lra.
    - right; left. split; [now rewrite Hz|exact Hz].
    - left. split; [apply Qabs_pos|]; lra. }
  destruct (Qle_bool 0 q) eqn:Hs.
  - apply Qle_bool_iff in Hs.
    rewrite (Qabs_pos q Hs) in Hfar.
    assert (Hq : q + (1 # 2) == inject_Z z).
    { destruct Hz as [[Hz ?]|[[Hz ?]|[Hz ?]]]; rewrite Hz in Hfar;
      destruct Htie; lra. }
    rewrite Hq. apply Qfloor_Z.
  - assert (Hn : q < 0).
    { apply Qnot_le_lt. intros H. apply Qle_bool_iff in H. congruence. }
    rewrite (Qabs_neg q) in Hfar by lra.
    assert (Hq : q - (1 # 2) == inject_Z z).
    { destruct Hz as [[Hz ?]|[[Hz ?]|[Hz ?]]]; rewrite Hz in Hfar;
      destruct Htie; lra. }
    rewrite Hq. apply Qceiling_Z.
Qed.

Lemma getSecondsToScrobble_infinite :
  getSecondsToScrobble (JSNumber PosInf) = Fin 240.
Proof. reflexivity. Qed.

(** The falsy values are [undefined], [null], [NaN] and zero. *)
Lemma falsy_values (v : value) :
  ToBoolean v = false <->
  v = JSUndefined \/ v = JSNull \/ v = JSNumber NaN \/
  exists q, v = seconds q /\ q == 0.
Proof.
  split.
  - destruct v as [| |[| | |q]]; simpl; intros H; try discriminate H; auto.
    right; right; right. exists q. split; [reflexivity|].
    apply Qeq_bool_iff. now destruct (Qeq_bool q 0).
  - intros [->|[->|[->|[q [-> Hq]]]]]; try reflexivity.
    simpl. apply Qeq_bool_iff in Hq. now rewrite Hq.
Qed.

(** C1: for every numeric duration of at least 30 seconds
    (MIN_TRACK_DURATION), [getSecondsToScrobble] returns the half of the
    duration ([duration * 50 / 100]) rounded to the nearest integer, ties
    away from zero, and clamped to at most 240; in particular a duration of
    600 gives 240, a duration of 100 gives 50 and a duration of 30
    gives 15. *)
Theorem getSecondsToScrobble_half_clamped (q : Q) (Hq : 30 <= q) :
  getSecondsToScrobble (seconds q) =
    Fin (inject_Z (Z.min (round_half_away (q * 50 / 100)) 240)) /\
  getSecondsToScrobble (seconds 600) = Fin 240 /\
  getSecondsToScrobble (seconds 100) = Fin 50 /\
  getSecondsToScrobble (seconds 30) = Fin 15.
Proof.
  split; [|repeat split].
  rewrite getSecondsToScrobble_unfold by exact Hq.
  rewrite round_half_away_nonneg; [reflexivity|].
  rewrite half_eq. lra.
Qed.

Lemma getSecondsToScrobble_half_clamped_witness :
  30 <= 91 /\
  getSecondsToScrobble (seconds 91) = Fin 46 /\
  getSecondsToScrobble (seconds 600) = Fin 240.
Proof.
  assert (H : 30 <= 91) by (unfold Qle; simpl; lia).
  split; [exact H|].
  split.
  - exact (proj1 (getSecondsToScrobble_half_clamped 91 H)).
  - exact (proj1 (proj2 (getSecondsToScrobble_half_clamped 91 H))).
Defined.

(** C2: for every falsy duration argument (zero, [undefined], [null],
    [NaN]) [getSecondsToScrobble] returns DEFAULT_SCROBBLE_TIME, which
    is 30. *)
Theorem getSecondsToScrobble_falsy (v : value) (Hv : ToBoolean v = false) :
  getSecondsToScrobble v = DEFAULT_SCROBBLE_TIME /\
  DEFAULT_SCROBBLE_TIME = Fin 30.
Proof.
  split; [|reflexivity].
  unfold getSecondsToScrobble. now rewrite Hv.
Qed.

Lemma getSecondsToScrobble_falsy_witness :
  getSecondsToScrobble (seconds 0) = Fin 30 /\
  getSecondsToScrobble JSUndefined = Fin 30 /\
  getSecondsToScrobble JSNull = Fin 30 /\
  getSecondsToScrobble (JSNumber NaN) = Fin 30.
Proof.
  split; [|split; [|split]].
  - exact (proj1 (getSecondsToScrobble_falsy (seconds 0) eq_refl)).
  - exact (proj1 (getSecondsToScrobble_falsy JSUndefined eq_refl)).
  - exact (proj1 (getSecondsToScrobble_falsy JSNull eq_refl)).
  - exact (proj1 (getSecondsToScrobble_falsy (JSNumber NaN) eq_refl)).
Defined.

(** The second branch of the calculator. *)
Lemma sentinel_below_minimum (q : Q) :
  0 < q -> q < 30 -> getSecondsToScrobble (seconds q) = Fin (-1).
Proof.
  intros H0 H30. unfold getSecondsToScrobble.
  rewrite ToBoolean_pos by exact H0. cbn [negb].
  assert (Hlt : num_lt (ToNumber (seconds q)) MIN_TRACK_DURATION = true).
  { apply num_lt_Fin. exact H30. }
  now rewrite Hlt.
Qed.

(** C3: for every duration above zero and below 30 seconds
    (MIN_TRACK_DURATION) [getSecondsToScrobble] returns the
    sentinel -1. *)
Theorem getSecondsToScrobble_too_short (q : Q) (Hq : 0 < q /\ q < 30) :
  getSecondsToScrobble (seconds q) = Fin (-1).
Proof. destruct Hq as [H0 H30]. now apply sentinel_below_minimum. Qed.

Lemma getSecondsToScrobble_too_short_witness :
  (0 < 59 # 2 /\ 59 # 2 < 30) /\
  getSecondsToScrobble (seconds (59 # 2)) = Fin (-1).
Proof.
  assert (H : 0 < 59 # 2 /\ 59 # 2 < 30) by (split; reflexivity).
  split; [exact H|].
  exact (getSecondsToScrobble_too_short (59 # 2) H).
Defined.

(** Every input of the calculator gives a delay the specification
    allows. *)
Lemma ScrobbleDelay_of_domain (v : value) :
  calculator_domain v -> ScrobbleDelay (getSecondsToScrobble v).
Proof.
  intros Hv. destruct (ToBoolean v) eqn:Hb.
  - destruct Hv as [Hv|[q [-> Hq]]]; [congruence|].
    assert (H0 : 0 < q).
    { apply Qle_lteq in Hq. destruct Hq as [Hq|Hq]; [exact Hq|].
      simpl in Hb. symmetry in Hq. apply Qeq_bool_iff in Hq.
      rewrite Hq in Hb. discriminate Hb. }
    destruct (Qlt_le_dec q 30) as [Hs|Hl].
    + left. now apply sentinel_below_minimum.
    + right. rewrite getSecondsToScrobble_unfold by exact Hl.
      eexists. split; [reflexivity|].
      assert (H15 : (15 <= Qfloor (q * 50 / 100 + (1 # 2)))%Z).
      { change 15%Z with (Qfloor (31 # 2)).
        apply Qfloor_resp_le. rewrite half_eq. lra. }
      lia.
  - right. exists 30%Z. split; [|lia].
    unfold getSecondsToScrobble. now rewrite Hb.
Qed.

(** C4: for every input of the calculator (a falsy value, or a duration
    that is not negative) the value [getSecondsToScrobble] returns is the
    sentinel -1 or a whole number between 1 and 240; it is never zero, and
    never negative unless it is the sentinel. *)
Theorem getSecondsToScrobble_range (v : value) (Hv : calculator_domain v) :
  ScrobbleDelay (getSecondsToScrobble v) /\
  (forall x, getSecondsToScrobble v = Fin x ->
     ~ x == 0 /\ (x < 0 -> x == -1)).
Proof.
  pose proof (ScrobbleDelay_of_domain v Hv) as HD.
  split; [exact HD|].
  intros x Hx. rewrite Hx in HD.
  destruct HD as [HD|[z [HD Hz]]]; injection HD as ->.
  - split; [discriminate|reflexivity].
  - split.
    + intros H. unfold Qeq in H. simpl in H. lia.
    + intros H. unfold Qlt in H. simpl in H. lia.
Qed.

Lemma getSecondsToScrobble_range_witness :
  calculator_domain (seconds 45) /\
  ScrobbleDelay (getSecondsToScrobble (seconds 45)).
Proof.
  assert (H : calculator_domain (seconds 45)).
  { right. exists 45. split; [reflexivity|]. unfold Qle; simpl; lia. }
  split; [exact H|].
  exact (proj1 (getSecondsToScrobble_range (seconds 45) H)).
Defined.

End Calculator.

(** ** Redaction of sensitive strings *)

Section Redaction.
Local Open Scope string_scope.
Local Open Scope nat_scope.

Lemma append_cons (c : ascii) (a b : string) :
  String c a ++ b = String c (a ++ b).
Proof. reflexivity. Qed.

Lemma append_nil (b : string) : "" ++ b = b.
Proof. reflexivity. Qed.

Ltac str_simpl := rewrite ?append_cons, ?append_nil.

Lemma str_append_assoc (a b c : string) : (a ++ b) ++ c = a ++ b ++ c.
Proof. induction a as [|x a IH]; str_simpl; [reflexivity|]. now rewrite IH. Qed.

Lemma length_str_append (a b : string) :
  String.length (a ++ b) = String.length a + String.length b.
Proof. induction a as [|c a IH]; simpl; [reflexivity|]. now rewrite IH. Qed.

Lemma length_replacer (n : nat) :
  String.length (str_repeat STR_REPLACER n) = n.
Proof. induction n as [|n IH]; simpl; [reflexivity|]. now f_equal. Qed.

Lemma length_substr (s : string) (n : nat) :
  String.length (substr s n) = String.length s - n.
Proof.
  revert s. induction n as [|n IH]; intros s.
  - simpl. lia.
  - destruct s as [|c s]; simpl; [reflexivity|]. apply IH.
Qed.

Lemma truthy_nonempty (s : string) : truthy (SStr s) = true <-> s <> "".
Proof. destruct s; simpl; split; congruence. Qed.

Lemma hideString_nonempty (s : string) :
  s <> "" ->
  hideString (SStr s) =
  SStr (str_repeat STR_REPLACER (Nat.min REPLACER_LEN (String.length s)) ++
        substr s (Nat.min REPLACER_LEN (String.length s))).
Proof.
  intros Hs. unfold hideString.
  rewrite (proj2 (truthy_nonempty s) Hs). cbv zeta.
  now rewrite length_replacer.
Qed.

(** C10: for every non-empty string, [hideString] returns a string of
    exactly the same length: a mask of [min 5 (length str)] characters ['x']
    followed by [str.substr] from the length of the mask; an empty or absent
    argument is returned unchanged. *)
Theorem hideString_length (s : string) (Hs : s <> "") :
  (exists r : string,
     hideString (SStr s) = SStr r /\
     r = str_repeat "x" (Nat.min 5 (String.length s)) ++
         substr s (Nat.min 5 (String.length s)) /\
     String.length r = String.length s) /\
  hideString (SStr "") = SStr "" /\
  hideString SUndefined = SUndefined /\
  hideString SNull = SNull.
Proof.
  split; [|repeat split].
  eexists. split; [apply hideString_nonempty, Hs|].
  split; [reflexivity|].
  rewrite length_str_append, length_replacer, length_substr.
  unfold REPLACER_LEN. lia.
Qed.

Lemma hideString_length_witness :
  exists r : string,
    hideString (SStr "secret123") = SStr r /\
    r = "xxxxxt123" /\
    String.length r = 9.
Proof.
  assert (H : "secret123" <> "") by discriminate.
  exact (proj1 (hideString_length "secret123" H)).
Defined.

(** [find_first] splits the text around an occurrence of the pattern. *)
Lemma prefix_split (p t : string) :
  String.prefix p t = true -> t = p ++ substr t (String.length p).
Proof.
  revert t. induction p as [|c p IH]; intros t H; [reflexivity|].
  destruct t as [|d t]; simpl in H; [discriminate|].
  destruct (ascii_dec c d) as [->|]; [|discriminate].
  simpl. str_simpl. f_equal. now apply IH.
Qed.

Lemma find_first_split (p t before after : string) :
  find_first p t = Some (before, after) -> t = before ++ p ++ after.
Proof.
  revert before after. induction t as [|c t IH]; intros before after.
  - cbn [find_first]. destruct (String.prefix p "") eqn:E; [|discriminate].
    intros [= <- <-]. now apply prefix_split in E.
  - cbn [find_first]. destruct (String.prefix p (String c t)) eqn:E.
    + intros [= <- <-]. now apply prefix_split in E.
    + destruct (find_first p t) as [[b a]|] eqn:F; [|discriminate].
      intros [= <- <-]. str_simpl. f_equal. now apply IH.
Qed.

(** A secret that occurs in the text is found. *)
Lemma prefix_append (p rest : string) : String.prefix p (p ++ rest) = true.
Proof.
  induction p as [|c p IH]; str_simpl; simpl; [now destruct rest|].
  destruct (ascii_dec c c); [exact IH|congruence].
Qed.

Lemma find_first_occurs (p before after : string) :
  exists b a, find_first p (before ++ p ++ after) = Some (b, a).
Proof.
  induction before as [|c before [b [a IH]]].
  - str_simpl. pose proof (prefix_append p after) as E.
    destruct (p ++ after); cbn [find_first]; rewrite E; eauto.
  - str_simpl. cbn [find_first].
    destruct (String.prefix p (String c (before ++ p ++ after))); [eauto|].
    rewrite IH. eauto.
Qed.

Lemma get_substitution_plain (m b a tpl : string) :
  no_dollar tpl = true -> get_substitution m b a tpl = tpl.
Proof.
  induction tpl as [|c tpl IH]; [reflexivity|].
  cbn [no_dollar get_substitution]. intros H.
  apply andb_prop in H as [Hc Hr].
  destruct (Ascii.eqb c "$"); [discriminate Hc|].
  now rewrite IH.
Qed.

Lemma no_dollar_append (s t : string) :
  no_dollar (s ++ t) = no_dollar s && no_dollar t.
Proof.
  induction s as [|c s IH]; [reflexivity|].
  str_simpl. simpl. rewrite IH. now rewrite andb_assoc.
Qed.

Lemma no_dollar_replacer (n : nat) : no_dollar (str_repeat STR_REPLACER n) = true.
Proof. induction n as [|n IH]; [reflexivity|exact IH]. Qed.

(** Where the code redacts as the specification describes: the secret has
    at least five characters, it occurs in the text, and what follows its
    first five characters holds no dollar sign.  [before] and [after] are the
    text around the first occurrence. *)
Lemma hideStringInText_plain (s t before after : string) :
  REPLACER_LEN <= String.length s ->
  no_dollar (substr s REPLACER_LEN) = true ->
  find_first s t = Some (before, after) ->
  hideStringInText (SStr s) (SStr t) = SStr (redacted before s after) /\
  t = before ++ s ++ after.
Proof.
  intros Hlen Hd Hf.
  pose proof (find_first_split _ _ _ _ Hf) as Ht.
  split; [|exact Ht].
  assert (Hlt : REPLACER_LEN <= String.length t).
  { rewrite Ht, !length_str_append. lia. }
  assert (Hs : s <> "") by (intros ->; simpl in Hlen; unfold REPLACER_LEN in Hlen; lia).
  assert (Hne : t <> "") by (intros E; rewrite E in Hlt; simpl in Hlt; unfold REPLACER_LEN in Hlt; lia).
  unfold hideStringInText, redacted.
  rewrite (proj2 (truthy_nonempty s) Hs), (proj2 (truthy_nonempty t) Hne).
  cbn [andb]. cbv zeta. rewrite length_replacer.
  rewrite !Nat.min_l by assumption.
  unfold str_replace. rewrite Hf.
  rewrite get_substitution_plain.
  - now rewrite str_append_assoc.
  - now rewrite no_dollar_append, no_dollar_replacer, Hd.
Qed.

(** The text is returned unchanged when the secret or the text is empty or
    absent, and when the secret does not occur in the text. *)
Lemma hideStringInText_falsy (str text : jsstring) :
  truthy str && truthy text = false -> hideStringInText str text = text.
Proof.
  intros H. unfold hideStringInText.
  destruct str as [| |s]; try reflexivity.
  destruct text as [| |t]; try reflexivity.
  now rewrite H.
Qed.

Lemma hideStringInText_absent_secret (s t : string) :
  find_first s t = None -> hideStringInText (SStr s) (SStr t) = SStr t.
Proof.
  intros Hf. unfold hideStringInText, str_replace. rewrite Hf.
  now destruct (truthy (SStr s) && truthy (SStr t)).
Qed.

(** C7: [hideStringInText] does not always mask the first occurrence of the
    secret as described.  The replacement text is handed to [replace], which
    expands dollar patterns: for the secret [token$&] the result holds the
    whole secret again after the mask.  The mask is as long as
    [min 5 (length text)], not [min 5 (length secret)]: a secret of two
    characters is replaced by five mask characters. *)
Theorem hideStringInText_dollar_and_short :
  (hideStringInText (SStr "token$&") (SStr "auth=token$&;")
     = SStr "auth=xxxxxtoken$&;" /\
   redacted "auth=" "token$&" ";" = "auth=xxxxx$&;") /\
  (hideStringInText (SStr "ab") (SStr "key=ab;") = SStr "key=xxxxx;" /\
   redacted "key=" "ab" ";" = "key=xx;" /\
   hideString (SStr "ab") = SStr "xx").
Proof. repeat split. Qed.

End Redaction.

(** ** The timeout guard *)

Section TimeoutGuard.
Context {V : Type}.
Implicit Types (g : guard V) (o : promise_state V) (op : operation V).
Local Open Scope nat_scope.

Lemma run_until_eq tf timeout op t :
  run_until tf timeout op t =
  fold_left step (events_at tf timeout op t) (before tf timeout op t).
Proof. now destruct t. Qed.

Lemma events_at_idle tf timeout op t :
  t <> timeout ->
  (forall ts o, op = Some (ts, o) -> t <> ts) ->
  events_at tf timeout op t = [].
Proof.
  intros Ht Hop. unfold events_at.
  destruct (Nat.eqb_spec t timeout) as [|_]; [contradiction|].
  destruct op as [[ts o]|].
  - destruct (Nat.eqb_spec t ts) as [E|_]; [|now destruct tf].
    now destruct (Hop ts o eq_refl).
  - now destruct tf.
Qed.

Lemma events_at_settle tf timeout ts o :
  ts <> timeout ->
  events_at tf timeout (Some (ts, o)) ts = [WrappedSettles o].
Proof.
  intros Ht. unfold events_at.
  destruct (Nat.eqb_spec ts timeout) as [|_]; [contradiction|].
  rewrite Nat.eqb_refl. now destruct tf.
Qed.

Lemma events_at_deadline tf timeout op :
  (forall ts o, op = Some (ts, o) -> timeout <> ts) ->
  events_at tf timeout op timeout = [TimerExpires].
Proof.
  intros Hop. unfold events_at. rewrite Nat.eqb_refl.
  destruct op as [[ts o]|]; [|now destruct tf].
  destruct (Nat.eqb_spec timeout ts) as [E|_]; [|now destruct tf].
  now destruct (Hop ts o eq_refl).
Qed.

(** Nothing happens before the first of the two events. *)
Lemma run_until_idle tf timeout op t :
  t < timeout ->
  (forall ts o, op = Some (ts, o) -> t < ts) ->
  run_until tf timeout op t = timeoutPromise.
Proof.
  intros Ht Hop. induction t as [|t IH].
  - rewrite run_until_eq, events_at_idle; [reflexivity|lia|].
    intros ts o E. specialize (Hop ts o E). lia.
  - rewrite run_until_eq, events_at_idle; [|lia|].
    + apply IH; [lia|]. intros ts o E. specialize (Hop ts o E). lia.
    + intros ts o E. specialize (Hop ts o E). lia.
Qed.

Lemma before_idle tf timeout op t :
  t <= timeout ->
  (forall ts o, op = Some (ts, o) -> t <= ts) ->
  before tf timeout op t = timeoutPromise.
Proof.
  intros Ht Hop. destruct t as [|t]; [reflexivity|].
  apply run_until_idle; [lia|].
  intros ts o E. specialize (Hop ts o E). lia.
Qed.

(** The reaction of a settlement that comes first. *)
Lemma step_settles_first o :
  is_settled o = true ->
  step timeoutPromise (WrappedSettles o) = mkGuard Cleared o o.
Proof. now destruct o. Qed.

(** Once the timer is cleared and both promises are settled, no event
    changes the guard. *)
Lemma step_cleared g e :
  timeoutId g = Cleared ->
  is_settled (wrapped g) = true ->
  step g e = g.
Proof.
  intros Ht Hw. destruct e as [|o]; simpl.
  - now rewrite Ht.
  - destruct (wrapped g); [discriminate Hw|reflexivity|reflexivity].
Qed.

Lemma fold_step_cleared g (es : list (event V)) :
  timeoutId g = Cleared ->
  is_settled (wrapped g) = true ->
  fold_left step es g = g.
Proof.
  intros Ht Hw. induction es as [|e es IH]; [reflexivity|].
  simpl. now rewrite step_cleared.
Qed.

Lemma run_until_settled_first tf timeout ts o t :
  is_settled o = true -> ts < timeout -> ts <= t ->
  run_until tf timeout (Some (ts, o)) t = mkGuard Cleared o o.
Proof.
  intros Ho Hts Ht. induction t as [t IH] using lt_wf_ind.
  rewrite run_until_eq.
  destruct (Nat.eq_dec t ts) as [->|Hne].
  - rewrite events_at_settle by lia.
    rewrite before_idle; [|lia|].
    + simpl fold_left. now apply step_settles_first.
    + intros ts' o' [= -> ->]. lia.
  - destruct t as [|t]; [lia|]. simpl before.
    rewrite (IH t) by lia. now apply fold_step_cleared.
Qed.

(** C5: when the wrapped promise settles before the deadline, the reaction
    of [timeoutPromise] clears the timer and settles the returned promise as
    the wrapped one: fulfilled with the same value, or rejected with the
    same error.  This holds from the settlement on, also past the
    deadline. *)
Theorem timeoutPromise_forwards (timer_first : bool) (timeout ts : nat)
    (o : promise_state V) (t : nat)
    (Ho : is_settled o = true) (Hts : ts < timeout) (Ht : ts <= t) :
  timeoutId (run_until timer_first timeout (Some (ts, o)) t) = Cleared /\
  returned (run_until timer_first timeout (Some (ts, o)) t) = o.
Proof. now rewrite run_until_settled_first. Qed.

(** After the timer has expired, the returned promise stays rejected and
    the timer stays spent; the wrapped promise still settles. *)
Lemma step_fired g e err :
  timeoutId g = Fired -> returned g = Rejected err ->
  timeoutId (step g e) = Fired /\ returned (step g e) = Rejected err /\
  wrapped (step g e) =
    match e with
    | WrappedSettles o => settle (wrapped g) o
    | TimerExpires => wrapped g
    end.
Proof.
  intros Ht Hr. destruct e as [|o]; simpl.
  - now rewrite Ht.
  - destruct (wrapped g) eqn:Hw; [|now rewrite Hw..].
    destruct o; simpl; rewrite ?Ht, ?Hr, ?Hw; auto.
Qed.

Lemma run_until_deadline_first tf timeout op t :
  deadline_first timeout op -> timeout <= t ->
  run_until tf timeout op t =
  mkGuard Fired (Rejected (ErrorObject "promise timeout")) (on_schedule op t).
Proof.
  intros Hop Ht. induction t as [t IH] using lt_wf_ind.
  rewrite run_until_eq.
  destruct (Nat.eq_dec t timeout) as [->|Hne].
  - rewrite events_at_deadline, before_idle; [|lia| |].
    + simpl. f_equal. destruct op as [[ts o]|]; [|reflexivity].
      simpl in *. destruct (Nat.leb_spec ts timeout); [lia|reflexivity].
    + intros ts o ->. simpl in Hop. lia.
    + intros ts o ->. simpl in Hop. lia.
  - destruct t as [|t]; [lia|]. simpl before.
    rewrite (IH t) by lia. unfold events_at.
    destruct (Nat.eqb_spec (S t) timeout) as [|_]; [lia|].
    destruct op as [[ts o]|]; [|now destruct tf].
    simpl in Hop. simpl on_schedule.
    destruct (Nat.eqb_spec (S t) ts) as [<-|Hts].
    + rewrite Nat.leb_refl.
      destruct (Nat.leb_spec (S t) t); [lia|].
      destruct tf; simpl; now destruct o.
    + destruct (Nat.leb_spec ts t), (Nat.leb_spec ts (S t)); try lia;
        now destruct tf.
Qed.

(** C6: when the deadline comes before the wrapped promise settles, the
    returned promise is rejected with an [Error] whose message is the fixed
    text [promise timeout], and stays so; the wrapped promise is not
    cancelled: it settles on its own schedule, as if it were not wrapped. *)
Theorem timeoutPromise_times_out (timer_first : bool) (timeout : nat)
    (op : operation V) (t : nat)
    (Hop : deadline_first timeout op) (Ht : timeout <= t) :
  returned (run_until timer_first timeout op t) =
    Rejected (ErrorObject "promise timeout") /\
  wrapped (run_until timer_first timeout op t) = on_schedule op t.
Proof. now rewrite run_until_deadline_first. Qed.

End TimeoutGuard.

Lemma timeoutPromise_forwards_witness :
  returned
    (run_until false 50%nat (Some (10%nat, Fulfilled (Val "ok"%string))) 60%nat)
    = Fulfilled (Val "ok"%string) /\
  returned
    (run_until false 50%nat (Some (10%nat, Rejected (ErrorObject "err"))) 60%nat)
    = Rejected (ErrorObject (V:=string) "err").
Proof.
  split.
  - refine (proj2 (timeoutPromise_forwards (V:=string) false 50%nat 10%nat
                     (Fulfilled (Val "ok"%string)) 60%nat _ _ _));
      [reflexivity|lia|lia].
  - refine (proj2 (timeoutPromise_forwards (V:=string) false 50%nat 10%nat
                     (Rejected (ErrorObject "err")) 60%nat _ _ _));
      [reflexivity|lia|lia].
Defined.

Lemma timeoutPromise_times_out_witness :
  returned
    (run_until false 10%nat (Some (50%nat, Fulfilled (Val "ok"%string))) 60%nat)
    = Rejected (ErrorObject "promise timeout") /\
  wrapped
    (run_until false 10%nat (Some (50%nat, Fulfilled (Val "ok"%string))) 60%nat)
    = Fulfilled (Val "ok"%string).
Proof.
  refine (timeoutPromise_times_out (V:=string) false 10%nat
            (Some (50%nat, Fulfilled (Val "ok"%string))) 60%nat _ _);
    simpl; lia.
Defined.

(** ** Sorting the connectors *)

Section SortedConnectors.
Context {D : Type}.
Variable localeCompare : string -> string -> Z.
Hypothesis localeCompare_consistent : consistent localeCompare.
Implicit Types (a b : connector D) (l : list (connector D)).
Implicit Types (h : gmap loc (list (connector D))).

Local Abbreviation cmp := (by_label (D:=D) localeCompare).
Local Abbreviation le := (label_le (D:=D) localeCompare).

Lemma le_total a b : ~ le a b -> le b a.
Proof.
  unfold label_le. intros H.
  apply (proj1 localeCompare_consistent). lia.
Qed.

Lemma le_trans a b c : le a b -> le b c -> le a c.
Proof. unfold label_le. apply (proj2 localeCompare_consistent). Qed.

Lemma insert_sorted_perm a l : Permutation (a :: l) (insert_sorted cmp a l).
Proof.
  induction l as [|b l IH]; simpl; [reflexivity|].
  destruct (Z.leb (cmp a b) 0); [reflexivity|].
  rewrite perm_swap. now apply perm_skip.
Qed.

Lemma sort_stable_perm l : Permutation l (sort_stable cmp l).
Proof.
  induction l as [|a l IH]; simpl; [reflexivity|].
  rewrite <- insert_sorted_perm. now apply perm_skip.
Qed.

Lemma insert_sorted_HdRel a b l :
  le b a -> HdRel le b l -> HdRel le b (insert_sorted cmp a l).
Proof.
  intros Hba Hl. destruct l as [|c l]; simpl; [now constructor|].
  destruct (Z.leb (cmp a c) 0); constructor; [exact Hba|].
  now inversion Hl.
Qed.

Lemma insert_sorted_Sorted a l :
  Sorted le l -> Sorted le (insert_sorted cmp a l).
Proof.
  induction l as [|b l IH]; simpl; intros Hl.
  - repeat constructor.
  - destruct (Z.leb_spec (cmp a b) 0) as [Hab|Hab].
    + constructor; [exact Hl|]. now constructor.
    + inversion Hl as [|? ? Hs Hh]; subst.
      constructor; [now apply IH|].
      apply insert_sorted_HdRel; [|exact Hh].
      apply le_total. unfold label_le, by_label in *. lia.
Qed.

Lemma sort_stable_Sorted l : Sorted le (sort_stable cmp l).
Proof.
  induction l as [|a l IH]; simpl; [constructor|].
  now apply insert_sorted_Sorted.
Qed.

(** Sorting a sorted array leaves it as it is. *)
Lemma sort_stable_id l : Sorted le l -> sort_stable cmp l = l.
Proof.
  induction l as [|a l IH]; [reflexivity|].
  intros Hl. inversion Hl as [|? ? Hs Hh]; subst.
  simpl. rewrite IH by exact Hs.
  destruct Hh as [|b l Hab]; [reflexivity|].
  simpl. unfold label_le, by_label in *.
  destruct (Z.leb_spec (localeCompare (label a) (label b)) 0); [reflexivity|lia].
Qed.

Lemma sort_stable_StronglySorted l : StronglySorted le (sort_stable cmp l).
Proof.
  apply Sorted_StronglySorted; [|apply sort_stable_Sorted].
  intros a b c. apply le_trans.
Qed.

(** C8: [getSortedConnectors] returns a new array, which holds the
    connectors sorted by label under the locale-aware comparison; the
    imported collection, like every other array, is left as it was; and
    sorting the returned array again leaves its order as it is. *)
Theorem getSortedConnectors_sorted_copy (connectors : loc) h l
    (Hc : h !! connectors = Some l) :
  exists (copy : loc) (h' : gmap loc (list (connector D)))
         (out : list (connector D)),
    getSortedConnectors localeCompare connectors h = Some (copy, h') /\
    h !! copy = None /\
    h' !! copy = Some out /\
    Permutation l out /\
    StronglySorted le out /\
    h' !! connectors = Some l /\
    (forall a : loc, a <> copy -> h' !! a = h !! a) /\
    array_sort cmp copy h' = Some (copy, h').
Proof.
  set (copy := fresh (dom h)).
  assert (Hfresh : h !! copy = None).
  { apply not_elem_of_dom. apply is_fresh. }
  assert (Hne : copy <> connectors) by congruence.
  exists copy, (<[copy := sort_stable cmp l]> (<[copy := l]> h)),
    (sort_stable cmp l).
  split.
  { unfold getSortedConnectors, array_slice0. rewrite Hc.
    fold copy. unfold array_sort. now rewrite lookup_insert_eq. }
  split; [exact Hfresh|].
  split; [apply lookup_insert_eq|].
  split; [apply sort_stable_perm|].
  split; [apply sort_stable_StronglySorted|].
  split; [now rewrite !lookup_insert_ne by exact Hne|].
  split.
  - intros a Ha. now rewrite !lookup_insert_ne by congruence.
  - unfold array_sort. rewrite lookup_insert_eq.
    rewrite sort_stable_id by apply sort_stable_Sorted.
    now rewrite insert_insert_eq.
Qed.

End SortedConnectors.

Lemma codeunit_compare_consistent : consistent codeunit_compare.
Proof.
  assert (Hle : forall a b, codeunit_compare a b <= 0 <->
                            a = b \/ String_as_OT.lt a b).
  { intros a b. unfold codeunit_compare.
    destruct (String_as_OT.compare_spec a b) as [E|E|E]; split; try lia; auto.
    intros [->|H]; exfalso.
    - exact (StrictOrder_Irreflexive _ E).
    - exact (StrictOrder_Irreflexive _ (StrictOrder_Transitive _ _ _ E H)). }
  split.
  - intros a b H. apply Hle. right.
    unfold codeunit_compare in H.
    destruct (String_as_OT.compare_spec a b) as [E|E|E]; [lia|lia|exact E].
  - intros a b c Hab Hbc. apply Hle in Hab, Hbc. apply Hle.
    destruct Hab as [->|Hab]; [exact Hbc|].
    destruct Hbc as [<-|Hbc]; [now right|].
    right. exact (StrictOrder_Transitive _ _ _ Hab Hbc).
Qed.

Lemma getSortedConnectors_sorted_copy_witness :
  exists (copy : loc) (h' : gmap loc (list (connector nat)))
         (out : list (connector nat)),
    getSortedConnectors codeunit_compare 0%nat
      (<[0%nat := [mkConnector "YouTube"%string 1%nat;
                   mkConnector "Deezer"%string 2%nat]]> ∅) = Some (copy, h') /\
    h' !! copy = Some out /\
    Permutation
      [mkConnector "YouTube"%string 1%nat; mkConnector "Deezer"%string 2%nat]
      out.
Proof.
  destruct (getSortedConnectors_sorted_copy (D:=nat) codeunit_compare
              codeunit_compare_consistent 0%nat
              (<[0%nat := [mkConnector "YouTube"%string 1%nat;
                           mkConnector "Deezer"%string 2%nat]]> ∅)
              [mkConnector "YouTube"%string 1%nat;
               mkConnector "Deezer"%string 2%nat]
              (lookup_insert_eq _ _ _))
    as (copy & h' & out & H1 & _ & H3 & H4 & _).
  exists copy, h', out. auto.
Defined.

(** ** Debug print *)

Section DebugLog.
Local Open Scope string_scope.

Lemma is_function_spec (p : option console_prop) :
  is_function p = true <-> exists f, p = Some (Function f).
Proof.
  destruct p as [[f|]|]; simpl; split; try discriminate; eauto.
  - intros [f [=]].
  - intros [f [=]].
Qed.





End DebugLog.

(** * Further properties *)

(** ** The scrobble threshold calculator: order, cap and sentinel *)

Section CalculatorMore.
Local Open Scope Q_scope.

Lemma Fin_inject_Z_inj (a b : Z) :
  Fin (inject_Z a) = Fin (inject_Z b) -> a = b.
Proof. intros H. now injection H. Qed.

(** X1: above the minimum track duration a longer track never scrobbles
    earlier: the delay grows with the duration. *)
Theorem getSecondsToScrobble_monotone (q1 q2 : Q)
    (H1 : 30 <= q1) (H2 : q1 <= q2) :
  exists z1 z2 : Z,
    getSecondsToScrobble (seconds q1) = Fin (inject_Z z1) /\
    getSecondsToScrobble (seconds q2) = Fin (inject_Z z2) /\
    (z1 <= z2)%Z.
Proof.
  assert (H3 : 30 <= q2) by lra.
  rewrite (getSecondsToScrobble_unfold q1 H1), (getSecondsToScrobble_unfold q2 H3).
  do 2 eexists. split; [reflexivity|]. split; [reflexivity|].
  apply Z.min_le_compat_r, Qfloor_resp_le.
  rewrite !half_eq. lra.
Qed.

Lemma getSecondsToScrobble_monotone_witness :
  exists z1 z2 : Z,
    getSecondsToScrobble (seconds 61) = Fin (inject_Z z1) /\
    getSecondsToScrobble (seconds 200) = Fin (inject_Z z2) /\
    (z1 <= z2)%Z.
Proof.
  apply (getSecondsToScrobble_monotone 61 200); unfold Qle; simpl; lia.
Defined.

(** X2: above the minimum track duration the cap of 240 seconds is reached
    exactly by the tracks of 479 seconds and more. *)
Theorem getSecondsToScrobble_cap (q : Q) (Hq : 30 <= q) :
  getSecondsToScrobble (seconds q) = Fin 240 <-> 479 <= q.
Proof.
  rewrite (getSecondsToScrobble_unfold q Hq).
  pose proof (Qfloor_le (q * 50 / 100 + (1 # 2))) as Hf.
  pose proof (half_eq q) as Hh.
  split.
  - intros H. apply (Fin_inject_Z_inj _ 240) in H.
    assert (Hz : (240 <= Qfloor (q * 50 / 100 + (1 # 2)))%Z) by lia.
    rewrite Zle_Qle in Hz. change (inject_Z 240) with 240 in Hz. lra.
  - intros H.
    assert (Hz : (240 <= Qfloor (q * 50 / 100 + (1 # 2)))%Z).
    { change 240%Z with (Qfloor 240). apply Qfloor_resp_le.
      rewrite half_eq. lra. }
    now rewrite Z.min_r by exact Hz.
Qed.

Lemma getSecondsToScrobble_cap_witness :
  getSecondsToScrobble (seconds 479) = Fin 240 /\
  ~ getSecondsToScrobble (seconds (957 # 2)) = Fin 240.
Proof.
  split.
  - apply (proj2 (getSecondsToScrobble_cap 479 ltac:(unfold Qle; simpl; lia))).
    unfold Qle; simpl; lia.
  - intros H.
    apply (proj1 (getSecondsToScrobble_cap (957 # 2)
                    ltac:(unfold Qle; simpl; lia))) in H.
    unfold Qle in H; simpl in H; lia.
Defined.

(** X3: above the minimum track duration the delay is a whole number of
    seconds, at least 15, that never exceeds the duration of the track; it
    is at most half a second above the half of the duration, and less than
    half a second below it unless the cap applies. *)
Theorem getSecondsToScrobble_within_track (q : Q) (Hq : 30 <= q) :
  exists z : Z,
    getSecondsToScrobble (seconds q) = Fin (inject_Z z) /\
    (15 <= z <= 240)%Z /\
    inject_Z z <= q /\
    inject_Z z <= q * (1 # 2) + (1 # 2) /\
    (q < 479 -> q * (1 # 2) - (1 # 2) < inject_Z z).
Proof.
  rewrite (getSecondsToScrobble_unfold q Hq).
  eexists. split; [reflexivity|].
  pose proof (Qfloor_le (q * 50 / 100 + (1 # 2))) as Hf.
  pose proof (Qlt_floor (q * 50 / 100 + (1 # 2))) as Hc.
  rewrite inject_Z_plus in Hc. change (inject_Z 1) with 1 in Hc.
  pose proof (half_eq q) as Hh.
  assert (H15 : (15 <= Qfloor (q * 50 / 100 + (1 # 2)))%Z).
  { change 15%Z with (Qfloor (31 # 2)).
    apply Qfloor_resp_le. rewrite half_eq. lra. }
  assert (Hmin : inject_Z (Z.min (Qfloor (q * 50 / 100 + (1 # 2))) 240)
                 <= inject_Z (Qfloor (q * 50 / 100 + (1 # 2)))).
  { rewrite <- Zle_Qle. lia. }
  split; [lia|]. split; [lra|]. split; [lra|].
  intros H479.
  assert (Hlt : (Qfloor (q * 50 / 100 + (1 # 2)) < 240)%Z).
  { rewrite Zlt_Qlt. change (inject_Z 240) with 240. lra. }
  rewrite Z.min_l by lia. lra.
Qed.

Lemma getSecondsToScrobble_within_track_witness :
  exists z : Z,
    getSecondsToScrobble (seconds 45) = Fin (inject_Z z) /\
    (15 <= z <= 240)%Z /\ inject_Z z <= 45.
Proof.
  destruct (getSecondsToScrobble_within_track 45
              ltac:(unfold Qle; simpl; lia)) as (z & H1 & H2 & H3 & _).
  exists z. auto.
Defined.

Lemma sentinel_nonzero_below (q : Q) :
  ~ q == 0 -> q < 30 -> getSecondsToScrobble (seconds q) = Fin (-1).
Proof.
  intros Hn0 Hlt. unfold getSecondsToScrobble. simpl ToBoolean.
  destruct (Qeq_bool q 0) eqn:E0.
  { apply Qeq_bool_iff in E0. contradiction. }
  cbn [negb].
  assert (H : num_lt (ToNumber (seconds q)) MIN_TRACK_DURATION = true).
  { apply num_lt_Fin. exact Hlt. }
  now rewrite H.
Qed.

(** X4: the sentinel -1 is returned exactly for minus infinity and for the
    finite durations that are not zero and are below 30 seconds, the
    negative ones included. *)
Theorem getSecondsToScrobble_sentinel_iff (v : value) :
  getSecondsToScrobble v = Fin (-1) <->
  v = JSNumber NegInf \/ exists q : Q, v = seconds q /\ ~ q == 0 /\ q < 30.
Proof.
  split.
  - destruct v as [| |[| | |q]]; try (simpl; discriminate).
    + intros _. now left.
    + intros H. right. exists q. split; [reflexivity|].
      destruct (Qeq_bool q 0) eqn:E0.
      { unfold getSecondsToScrobble in H. simpl in H. rewrite E0 in H.
        discriminate H. }
      assert (Hn0 : ~ q == 0).
      { intros Hq. apply Qeq_bool_iff in Hq. congruence. }
      split; [exact Hn0|].
      destruct (Qlt_le_dec q 30) as [Hlt|Hge]; [exact Hlt|].
      change (JSNumber (Fin q)) with (seconds q) in H.
      rewrite (getSecondsToScrobble_unfold q Hge) in H.
      apply (Fin_inject_Z_inj _ (-1)) in H.
      assert (H15 : (15 <= Qfloor (q * 50 / 100 + (1 # 2)))%Z).
      { change 15%Z with (Qfloor (31 # 2)).
        apply Qfloor_resp_le. rewrite half_eq. lra. }
      lia.
  - intros [->|(q & -> & Hn0 & Hlt)]; [reflexivity|].
    now apply sentinel_nonzero_below.
Qed.

(** X5: for every argument that is absent ([undefined], [null]) or a
    number ([NaN], an infinity, a negative or any other finite number),
    [getSecondsToScrobble] returns the sentinel -1 or a whole number of
    seconds between 1 and 240. *)
Theorem getSecondsToScrobble_number_range (v : value) :
  ScrobbleDelay (getSecondsToScrobble v).
Proof.
  destruct v as [| |[| | |q]];
    try (right; exists 30%Z; split; [reflexivity|lia]).
  - right. exists 240%Z. split; [reflexivity|lia].
  - now left.
  - destruct (Qlt_le_dec q 0) as [Hneg|Hpos].
    + left. apply sentinel_nonzero_below; [|lra].
      intros H. rewrite H in Hneg. discriminate Hneg.
    + apply ScrobbleDelay_of_domain. right. now exists q.
Qed.

End CalculatorMore.

(** ** Redaction: what is masked, what is kept, what leaks *)

Section RedactionMore.
Local Open Scope string_scope.
Local Open Scope nat_scope.

Ltac str_simpl := rewrite ?append_cons, ?append_nil.

Lemma substr_nil (n : nat) : substr "" n = "".
Proof. now destruct n. Qed.

Lemma substr_past_end (s : string) (n : nat) :
  String.length s <= n -> substr s n = "".
Proof.
  revert s. induction n as [|n IH]; intros s H.
  - destruct s; [reflexivity|simpl in H; lia].
  - destruct s as [|c s]; [reflexivity|]. simpl. apply IH. simpl in H. lia.
Qed.

Lemma substr_append_length (p r : string) :
  substr (p ++ r) (String.length p) = r.
Proof. induction p as [|c p IH]; str_simpl; [now destruct r|exact IH]. Qed.

Lemma substr_replacer (k : nat) (r : string) :
  substr (str_repeat STR_REPLACER k ++ r) k = r.
Proof.
  pose proof (substr_append_length (str_repeat STR_REPLACER k) r) as H.
  now rewrite length_replacer in H.
Qed.

Lemma append_inj_length (b b' x x' : string) :
  String.length b = String.length b' -> b ++ x = b' ++ x' -> b = b' /\ x = x'.
Proof.
  revert b'. induction b as [|c b IH]; intros [|c' b'] Hl; try discriminate Hl.
  - now str_simpl.
  - str_simpl. intros [= -> H]. injection Hl as Hl.
    destruct (IH b' Hl H) as [-> ->]. now split.
Qed.

Lemma append_inj_l (b x x' : string) : b ++ x = b ++ x' -> x = x'.
Proof. intros H. now apply (append_inj_length b b x x' eq_refl). Qed.

Lemma find_first_leftmost (p t before after : string) :
  find_first p t = Some (before, after) ->
  forall b a, t = b ++ p ++ a -> String.length before <= String.length b.
Proof.
  revert before after. induction t as [|c t IH]; intros before after.
  - cbn [find_first]. destruct (String.prefix p ""); [|discriminate].
    intros [= <- <-] b a _. simpl. lia.
  - cbn [find_first]. destruct (String.prefix p (String c t)) eqn:E.
    + intros [= <- <-] b a _. simpl. lia.
    + destruct (find_first p t) as [[b0 a0]|] eqn:F; [|discriminate].
      intros [= <- <-] b a Hb. destruct b as [|d b].
      * rewrite append_nil in Hb. rewrite Hb, prefix_append in E.
        discriminate E.
      * rewrite append_cons in Hb. injection Hb as _ Hb.
        simpl. apply le_n_S. exact (IH b0 a0 eq_refl b a Hb).
Qed.

(** The search of [replace] finds the first occurrence, and nothing else. *)
Lemma find_first_iff (p t before after : string) :
  find_first p t = Some (before, after) <-> first_occurrence p t before after.
Proof.
  split.
  - intros H. split; [now apply find_first_split|].
    now apply (find_first_leftmost p t before after).
  - intros [Ht Hleft].
    destruct (find_first_occurs p before after) as (b & a & Hf).
    rewrite <- Ht in Hf.
    pose proof (find_first_split _ _ _ _ Hf) as Ht'.
    pose proof (find_first_leftmost _ _ _ _ Hf before after Ht) as H1.
    pose proof (Hleft b a Ht') as H2.
    assert (Hl : String.length b = String.length before) by lia.
    rewrite Ht in Ht'.
    destruct (append_inj_length _ _ _ _ (eq_sym Hl) Ht') as [-> Hpa].
    apply append_inj_l in Hpa. now subst a.
Qed.

Lemma find_first_none_iff (p t : string) :
  find_first p t = None <-> forall b a, t <> b ++ p ++ a.
Proof.
  split.
  - intros Hn b a Ht.
    destruct (find_first_occurs p b a) as (b' & a' & Hf).
    rewrite <- Ht in Hf. congruence.
  - intros Hno. destruct (find_first p t) as [[b a]|] eqn:F; [|reflexivity].
    now destruct (Hno b a (find_first_split _ _ _ _ F)).
Qed.

Lemma get_substitution_append_plain (m b a r tpl : string) :
  no_dollar r = true ->
  get_substitution m b a (r ++ tpl) = r ++ get_substitution m b a tpl.
Proof.
  induction r as [|c r IH]; [reflexivity|].
  str_simpl. cbn [no_dollar get_substitution]. intros H.
  apply andb_prop in H as [Hc Hr].
  destruct (Ascii.eqb c "$"); [discriminate Hc|].
  now rewrite IH.
Qed.

(** What [hideStringInText] computes for a secret that occurs in the
    text. *)
Lemma hideStringInText_found (s t before after : string) :
  s <> "" ->
  first_occurrence s t before after ->
  hideStringInText (SStr s) (SStr t) =
  SStr (before ++
        str_repeat STR_REPLACER (Nat.min REPLACER_LEN (String.length t)) ++
        get_substitution s before after
          (substr s (Nat.min REPLACER_LEN (String.length t))) ++
        after).
Proof.
  intros Hs Hocc. pose proof (proj2 (find_first_iff _ _ _ _) Hocc) as Hf.
  destruct Hocc as [Ht _].
  assert (Hne : t <> "").
  { intros E. apply (f_equal String.length) in Ht.
    rewrite E, !length_str_append in Ht.
    destruct s; [congruence|simpl in Ht; lia]. }
  unfold hideStringInText.
  rewrite (proj2 (truthy_nonempty s) Hs), (proj2 (truthy_nonempty t) Hne).
  cbn [andb]. cbv zeta. rewrite length_replacer.
  unfold str_replace. rewrite Hf.
  rewrite get_substitution_append_plain by apply no_dollar_replacer.
  now rewrite str_append_assoc.
Qed.

(** X6: masking is idempotent: masking a masked string changes nothing. *)
Theorem hideString_idempotent (str : jsstring) :
  hideString (hideString str) = hideString str.
Proof.
  destruct str as [| |s]; try reflexivity.
  destruct s as [|c s]; [reflexivity|].
  assert (Hs : String c s <> "") by discriminate.
  rewrite (hideString_nonempty _ Hs).
  set (k := Nat.min REPLACER_LEN (String.length (String c s))).
  assert (Hk : 0 < k) by (unfold k, REPLACER_LEN; simpl; lia).
  assert (Hlen : String.length (str_repeat STR_REPLACER k ++ substr (String c s) k)
                 = String.length (String c s)).
  { rewrite length_str_append, length_replacer, length_substr.
    unfold k, REPLACER_LEN. lia. }
  rewrite hideString_nonempty.
  - rewrite Hlen. fold k. do 2 f_equal. apply substr_replacer.
  - intros E. rewrite E in Hlen. simpl in Hlen. lia.
Qed.

(** X7: the first five characters of a string have no effect on its mask:
    two strings of the same length that agree from index 5 on are masked to
    the same string.  A string of at most five characters shows nothing but
    its length. *)
Theorem hideString_hides_prefix (s s' : string)
    (Hlen : String.length s = String.length s')
    (Hrest : substr s 5 = substr s' 5) :
  hideString (SStr s) = hideString (SStr s').
Proof.
  destruct s as [|c s], s' as [|c' s']; try discriminate Hlen; [reflexivity|].
  rewrite !hideString_nonempty by discriminate.
  rewrite <- Hlen. do 2 f_equal.
  unfold REPLACER_LEN.
  destruct (Nat.le_gt_cases 5 (String.length (String c s))) as [H5|H5].
  - rewrite Nat.min_l by exact H5. exact Hrest.
  - rewrite Nat.min_r by lia.
    rewrite substr_past_end by lia.
    rewrite substr_past_end by lia. reflexivity.
Qed.

Lemma hideString_hides_prefix_witness :
  hideString (SStr "alice:4f2a") = hideString (SStr "carol:4f2a") /\
  hideString (SStr "abc") = hideString (SStr "xyz").
Proof.
  split.
  - apply hideString_hides_prefix; reflexivity.
  - apply hideString_hides_prefix; reflexivity.
Defined.

(** X8: when the secret occurs in the text and what follows the first
    [min 5 (length text)] characters of the secret holds no dollar sign,
    [hideStringInText] rewrites the first occurrence only: the text before
    and after it is kept, the occurrence becomes [min 5 (length text)]
    mask characters followed by the rest of the secret. *)
Theorem hideStringInText_first_occurrence (s t before after : string)
    (Hs : s <> "")
    (Hocc : first_occurrence s t before after)
    (Hd : no_dollar (substr s (Nat.min 5 (String.length t))) = true) :
  hideStringInText (SStr s) (SStr t) =
  SStr (before ++ str_repeat "x" (Nat.min 5 (String.length t)) ++
        substr s (Nat.min 5 (String.length t)) ++ after).
Proof.
  rewrite (hideStringInText_found s t before after Hs Hocc).
  unfold REPLACER_LEN, STR_REPLACER.
  now rewrite get_substitution_plain by exact Hd.
Qed.

Lemma hideStringInText_first_occurrence_witness :
  hideStringInText (SStr "secret123") (SStr "a=secret123&b=secret123")
  = SStr "a=xxxxxt123&b=secret123".
Proof.
  apply (hideStringInText_first_occurrence
           "secret123" "a=secret123&b=secret123" "a=" "&b=secret123").
  - discriminate.
  - apply find_first_iff. reflexivity.
  - reflexivity.
Defined.

(** X9: for a secret of at least five characters under the same
    conditions, the result is the redaction the specification describes,
    and the text keeps its length. *)
Theorem hideStringInText_long_secret (s t before after : string)
    (Hlen : 5 <= String.length s)
    (Hocc : first_occurrence s t before after)
    (Hd : no_dollar (substr s 5) = true) :
  exists r : string,
    hideStringInText (SStr s) (SStr t) = SStr r /\
    r = redacted before s after /\
    String.length r = String.length t.
Proof.
  pose proof (proj2 (find_first_iff _ _ _ _) Hocc) as Hf.
  destruct (hideStringInText_plain s t before after Hlen Hd Hf) as [Hr Ht].
  eexists. split; [exact Hr|]. split; [reflexivity|].
  unfold redacted. rewrite Ht, !length_str_append, length_replacer, length_substr.
  unfold REPLACER_LEN. lia.
Qed.

Lemma hideStringInText_long_secret_witness :
  exists r : string,
    hideStringInText (SStr "secret123") (SStr "token=secret123;") = SStr r /\
    r = "token=xxxxxt123;" /\
    String.length r = 16.
Proof.
  apply (hideStringInText_long_secret "secret123" "token=secret123;" "token=" ";").
  - simpl. lia.
  - apply find_first_iff. reflexivity.
  - reflexivity.
Defined.

(** X10: a text in which the secret does not occur is returned as it
    is. *)
Theorem hideStringInText_no_occurrence (s t : string)
    (Hno : forall b a : string, t <> b ++ s ++ a) :
  hideStringInText (SStr s) (SStr t) = SStr t.
Proof.
  apply hideStringInText_absent_secret. now apply find_first_none_iff.
Qed.

Lemma hideStringInText_no_occurrence_witness :
  hideStringInText (SStr "secret") (SStr "nothing to hide")
  = SStr "nothing to hide".
Proof.
  apply hideStringInText_no_occurrence.
  apply find_first_none_iff. reflexivity.
Defined.

(** X11: a secret that is five characters followed by [$&] is not hidden:
    [replace] expands [$&] to the matched text, so the result holds the
    whole secret right after the mask. *)
Theorem hideStringInText_leaks_match (p t before after : string)
    (Hp : String.length p = 5)
    (Hocc : first_occurrence (p ++ "$&") t before after) :
  hideStringInText (SStr (p ++ "$&")) (SStr t) =
  SStr (before ++ "xxxxx" ++ (p ++ "$&") ++ after).
Proof.
  assert (Hs : p ++ "$&" <> "").
  { intros E. apply (f_equal String.length) in E.
    rewrite length_str_append in E. simpl in E. lia. }
  rewrite (hideStringInText_found _ t before after Hs Hocc).
  assert (Ht : 5 <= String.length t).
  { destruct Hocc as [-> _]. rewrite !length_str_append. lia. }
  unfold REPLACER_LEN. rewrite Nat.min_l by exact Ht.
  rewrite <- Hp at 2. rewrite substr_append_length.
  cbn [get_substitution Ascii.eqb Bool.eqb]. cbn.
  do 2 f_equal.
  change (str_repeat STR_REPLACER 5) with "xxxxx".
  f_equal. generalize (p ++ "$&"). clear.
  intros m. induction m as [|c m IH]; [reflexivity|].
  str_simpl. now rewrite IH.
Qed.

Lemma hideStringInText_leaks_match_witness :
  hideStringInText (SStr "12345$&") (SStr "key=12345$&;")
  = SStr "key=xxxxx12345$&;".
Proof.
  apply (hideStringInText_leaks_match "12345" "key=12345$&;" "key=" ";").
  - reflexivity.
  - apply find_first_iff. reflexivity.
Defined.

(** X19: when the secret or the text is empty or absent, the text is
    returned as it is, an absent text included. *)
Theorem hideStringInText_empty_or_absent (str text : jsstring)
    (H : truthy str = false \/ truthy text = false) :
  hideStringInText str text = text.
Proof.
  apply hideStringInText_falsy.
  destruct H as [-> | ->]; [reflexivity|apply andb_false_r].
Qed.

Lemma hideStringInText_empty_or_absent_witness :
  hideStringInText (SStr "") (SStr "text") = SStr "text" /\
  hideStringInText SUndefined (SStr "text") = SStr "text" /\
  hideStringInText (SStr "secret") SNull = SNull /\
  hideStringInText (SStr "secret") (SStr "") = SStr "".
Proof.
  split; [|split; [|split]].
  - apply hideStringInText_empty_or_absent. now left.
  - apply hideStringInText_empty_or_absent. now left.
  - apply hideStringInText_empty_or_absent. now right.
  - apply hideStringInText_empty_or_absent. now right.
Defined.

End RedactionMore.

(** ** The timeout guard: settlement and the timer *)

Section TimeoutGuardMore.
Context {V : Type}.
Implicit Types (g : guard V) (o : promise_state V) (op : operation V).
Local Open Scope nat_scope.

Lemma settle_settled (p o : promise_state V) :
  is_settled p = true -> settle p o = p.
Proof. now destruct p. Qed.

Lemma step_returned_settled g (e : event V) :
  is_settled (returned g) = true -> returned (step g e) = returned g.
Proof.
  intros H. destruct e as [|o]; simpl.
  - destruct (timeoutId g); simpl; [now apply settle_settled|reflexivity..].
  - destruct (wrapped g); [|reflexivity..].
    destruct o; simpl; [reflexivity|now apply settle_settled..].
Qed.

Lemma fold_step_returned_settled (es : list (event V)) g :
  is_settled (returned g) = true ->
  returned (fold_left step es g) = returned g.
Proof.
  revert g. induction es as [|e es IH]; intros g H; [reflexivity|].
  simpl. rewrite IH; [now apply step_returned_settled|].
  now rewrite step_returned_settled.
Qed.

Lemma timeoutPromise_settles_once_aux (timer_first : bool) (timeout : nat)
    op (t t' : nat) :
  is_settled (returned (run_until timer_first timeout op t)) = true ->
  t <= t' ->
  returned (run_until timer_first timeout op t') =
  returned (run_until timer_first timeout op t).
Proof.
  intros Hs Ht. induction Ht as [|t' Ht IH]; [reflexivity|].
  cbn [run_until]. rewrite fold_step_returned_settled; [exact IH|].
  now rewrite IH.
Qed.

(** X12: the returned promise settles once: from the instant it is
    settled, no later event (a late settlement of the wrapped promise, the
    timer) changes its state. *)
Theorem timeoutPromise_settles_once (timer_first : bool) (timeout : nat)
    op (t t' : nat)
    (Hs : is_settled (returned (run_until timer_first timeout op t)) = true)
    (Ht : t <= t') :
  returned (run_until timer_first timeout op t') =
  returned (run_until timer_first timeout op t).
Proof.
  induction Ht as [|t' Ht IH]; [reflexivity|].
  cbn [run_until].
  rewrite fold_step_returned_settled; [exact IH|].
  rewrite IH. exact Hs.
Qed.

Lemma step_guard_inv g (e : event V) : guard_inv g -> guard_inv (step g e).
Proof.
  unfold guard_inv. destruct g as [tid r w], e as [|o]; simpl.
  - destruct tid; simpl; [|tauto..]. now intros [-> _].
  - destruct w; [|tauto..].
    destruct o; simpl; [tauto|..]; destruct tid; simpl.
    all: try (intros [-> _]; now split).
    all: try (intros [Hs ->]; discriminate Hs).
    all: now intros ->.
Qed.

(** X13: whatever the events and their order, the timer is set exactly
    while the returned promise is pending; a cleared timer means that the
    returned promise is settled as the wrapped one, an expired timer that it
    is rejected with the timeout error.  So no exit leaves the timer
    running. *)
Theorem timeoutPromise_timer_released (es : list (event V)) :
  let g := fold_left step es timeoutPromise in
  (timeoutId g = Armed <-> returned g = Pending) /\
  (timeoutId g = Cleared ->
   is_settled (returned g) = true /\ returned g = wrapped g) /\
  (timeoutId g = Fired ->
   returned g = Rejected (ErrorObject "promise timeout")).
Proof.
  assert (H : guard_inv (fold_left step es (@timeoutPromise V))).
  { assert (H0 : guard_inv (@timeoutPromise V)) by now split.
    revert H0. generalize (@timeoutPromise V).
    induction es as [|e es IH]; intros g Hg; [exact Hg|].
    simpl. apply IH. now apply step_guard_inv. }
  cbv zeta. revert H. unfold guard_inv.
  destruct (timeoutId (fold_left step es timeoutPromise)).
  - intros [Hr _]. repeat split; try discriminate; auto.
  - intros [Hs Hr]. repeat split; try discriminate; auto.
    intros E. rewrite E in Hs. discriminate Hs.
  - intros Hr. repeat split; try discriminate; auto.
    intros E. rewrite E in Hr. discriminate Hr.
Qed.

(** X14: when the wrapped promise settles at the very instant of the
    deadline, the event the loop runs first decides: the timer first gives
    the timeout error, the settlement first gives the outcome of the wrapped
    promise. *)
Theorem timeoutPromise_tie (timer_first : bool) (timeout : nat)
    (o : promise_state V) (t : nat)
    (Ho : is_settled o = true) (Ht : timeout <= t) :
  returned (run_until timer_first timeout (Some (timeout, o)) t) =
  if timer_first then Rejected (ErrorObject "promise timeout") else o.
Proof.
  assert (H0 : returned (run_until timer_first timeout (Some (timeout, o)) timeout)
               = if timer_first then Rejected (ErrorObject "promise timeout")
                 else o).
  { rewrite run_until_eq, before_idle; [|lia|].
    - unfold events_at. rewrite Nat.eqb_refl.
      destruct timer_first, o; try discriminate Ho; reflexivity.
    - intros ts o' [= -> _]. lia. }
  rewrite (timeoutPromise_settles_once_aux timer_first timeout _ timeout t).
  - exact H0.
  - rewrite H0. now destruct timer_first.
  - exact Ht.
Qed.

(** X15: before the deadline and before the wrapped promise settles, the
    guard waits: the returned promise is pending and the timer is set. *)
Theorem timeoutPromise_pending_before (timer_first : bool) (timeout : nat)
    op (t : nat)
    (Ht : t < timeout) (Hop : deadline_first t op) :
  returned (run_until timer_first timeout op t) = Pending /\
  timeoutId (run_until timer_first timeout op t) = Armed.
Proof.
  rewrite run_until_idle; [now split|exact Ht|].
  intros ts o ->. exact Hop.
Qed.

End TimeoutGuardMore.

Lemma timeoutPromise_settles_once_witness :
  returned
    (run_until false 10%nat (Some (50%nat, Fulfilled (Val "late"%string))) 70%nat)
  = Rejected (ErrorObject "promise timeout").
Proof.
  refine (timeoutPromise_settles_once (V:=string) false 10%nat
            (Some (50%nat, Fulfilled (Val "late"%string))) 10%nat 70%nat _ _);
    [reflexivity|lia].
Defined.

Lemma timeoutPromise_tie_witness :
  returned
    (run_until true 20%nat (Some (20%nat, Fulfilled (Val "ok"%string))) 30%nat)
    = Rejected (ErrorObject "promise timeout") /\
  returned
    (run_until false 20%nat (Some (20%nat, Fulfilled (Val "ok"%string))) 30%nat)
    = Fulfilled (Val "ok"%string).
Proof.
  split.
  - refine (timeoutPromise_tie (V:=string) true 20%nat
              (Fulfilled (Val "ok"%string)) 30%nat _ _); [reflexivity|lia].
  - refine (timeoutPromise_tie (V:=string) false 20%nat
              (Fulfilled (Val "ok"%string)) 30%nat _ _); [reflexivity|lia].
Defined.

Lemma timeoutPromise_pending_before_witness :
  returned
    (run_until false 50%nat (Some (10%nat, Fulfilled (Val "ok"%string))) 9%nat)
    = Pending /\
  timeoutId
    (run_until false 50%nat (Some (10%nat, Fulfilled (Val "ok"%string))) 9%nat)
    = Armed.
Proof.
  refine (timeoutPromise_pending_before (V:=string) false 50%nat
            (Some (10%nat, Fulfilled (Val "ok"%string))) 9%nat _ _);
    simpl; lia.
Defined.

(** ** Sorting the connectors: stability and repeated calls *)

Section SortedConnectorsMore.
Context {D : Type}.
Variable localeCompare : string -> string -> Z.
Implicit Types (a b : connector D) (l : list (connector D)).
Implicit Types (h : gmap loc (list (connector D))).

Local Abbreviation cmp := (by_label (D:=D) localeCompare).

(** What a call computes: the copy, and the store with the sorted copy
    added. *)
Lemma getSortedConnectors_eq (connectors : loc) h l :
  h !! connectors = Some l ->
  getSortedConnectors localeCompare connectors h =
  Some (fresh (dom h), <[fresh (dom h) := sort_stable cmp l]> h).
Proof.
  intros Hc. unfold getSortedConnectors, array_slice0. rewrite Hc.
  unfold array_sort. rewrite lookup_insert_eq. now rewrite insert_insert_eq.
Qed.

Lemma fresh_not_in h : h !! fresh (dom h) = None.
Proof. apply not_elem_of_dom, is_fresh. Qed.

Lemma filter_insert_sorted (P : connector D -> bool) a l :
  (forall b, In b l -> P a = true -> P b = true -> cmp a b <= 0) ->
  List.filter P (insert_sorted cmp a l) = List.filter P (a :: l).
Proof.
  induction l as [|b l IH]; intros H; [reflexivity|].
  cbn [insert_sorted].
  destruct (Z.leb_spec (cmp a b) 0) as [Hab|Hab]; [reflexivity|].
  cbn [List.filter]. rewrite IH.
  - cbn [List.filter].
    destruct (P a) eqn:Pa, (P b) eqn:Pb; try reflexivity.
    specialize (H b (or_introl eq_refl) eq_refl Pb). lia.
  - intros c Hc. apply H. now right.
Qed.

Lemma filter_sort_stable (P : connector D -> bool) l :
  (forall a b, P a = true -> P b = true -> cmp a b <= 0) ->
  List.filter P (sort_stable cmp l) = List.filter P l.
Proof.
  intros H. induction l as [|a l IH]; [reflexivity|].
  cbn [sort_stable]. rewrite filter_insert_sorted by (intros; now apply H).
  cbn [List.filter]. now rewrite IH.
Qed.

(** X16: the sort is stable: for a consistent comparator, the connectors
    that share a label come out in the order they had in the imported
    collection. *)
Theorem getSortedConnectors_stable (connectors : loc) h l (s : string)
    (Hcmp : consistent localeCompare)
    (Hc : h !! connectors = Some l) :
  exists (copy : loc) (h' : gmap loc (list (connector D)))
         (out : list (connector D)),
    getSortedConnectors localeCompare connectors h = Some (copy, h') /\
    h' !! copy = Some out /\
    List.filter (has_label s) out = List.filter (has_label s) l.
Proof.
  do 3 eexists. split; [exact (getSortedConnectors_eq connectors h l Hc)|].
  split; [apply lookup_insert_eq|].
  apply filter_sort_stable. intros a b Ha Hb.
  unfold has_label in Ha, Hb.
  apply String.eqb_eq in Ha, Hb. unfold by_label. rewrite Ha, Hb.
  destruct (Z_le_gt_dec (localeCompare s s) 0) as [Hle|Hgt]; [exact Hle|].
  apply (proj1 Hcmp). lia.
Qed.


(** X18: a collection that is already in label order is copied as it is:
    the new array has the connectors in the same order. *)
Theorem getSortedConnectors_sorted_input (connectors : loc) h l
    (Hc : h !! connectors = Some l)
    (Hl : Sorted (label_le localeCompare) l) :
  exists (copy : loc) (h' : gmap loc (list (connector D))),
    getSortedConnectors localeCompare connectors h = Some (copy, h') /\
    copy <> connectors /\
    h' !! copy = Some l.
Proof.
  do 2 eexists. split; [exact (getSortedConnectors_eq connectors h l Hc)|].
  split.
  - intros E. pose proof (fresh_not_in h) as Hf. rewrite E in Hf. congruence.
  - rewrite lookup_insert_eq. f_equal. now apply sort_stable_id.
Qed.

End SortedConnectorsMore.

Lemma getSortedConnectors_stable_witness :
  exists (copy : loc) (h' : gmap loc (list (connector nat)))
         (out : list (connector nat)),
    getSortedConnectors codeunit_compare 0%nat
      (<[0%nat := [mkConnector "YouTube"%string 1%nat;
                   mkConnector "Deezer"%string 2%nat;
                   mkConnector "YouTube"%string 3%nat]]> ∅) = Some (copy, h') /\
    h' !! copy = Some out /\
    List.filter (has_label "YouTube") out =
      [mkConnector "YouTube"%string 1%nat; mkConnector "YouTube"%string 3%nat].
Proof.
  exact (getSortedConnectors_stable (D:=nat) codeunit_compare 0%nat
           (<[0%nat := [mkConnector "YouTube"%string 1%nat;
                        mkConnector "Deezer"%string 2%nat;
                        mkConnector "YouTube"%string 3%nat]]> ∅)
           [mkConnector "YouTube"%string 1%nat;
            mkConnector "Deezer"%string 2%nat;
            mkConnector "YouTube"%string 3%nat]
           "YouTube"%string
           codeunit_compare_consistent (lookup_insert_eq _ _ _)).
Defined.


Lemma getSortedConnectors_sorted_input_witness :
  exists (copy : loc) (h' : gmap loc (list (connector nat))),
    getSortedConnectors codeunit_compare 0%nat
      (<[0%nat := [mkConnector "a"%string 1%nat;
                   mkConnector "b"%string 2%nat]]> ∅) = Some (copy, h') /\
    copy <> 0%nat /\
    h' !! copy =
      Some [mkConnector "a"%string 1%nat; mkConnector "b"%string 2%nat].
Proof.
  refine (getSortedConnectors_sorted_input (D:=nat) codeunit_compare 0%nat
            (<[0%nat := [mkConnector "a"%string 1%nat;
                         mkConnector "b"%string 2%nat]]> ∅)
            [mkConnector "a"%string 1%nat; mkConnector "b"%string 2%nat]
            (lookup_insert_eq _ _ _) _).
  repeat constructor; unfold label_le; simpl; vm_compute; discriminate.
Defined.
